(** * StateMachinePlus: a phase state machine over a replicated key/value state

    Shallow embedding of [StateMachinePlus.js] (kungfuters.StateMachinePlus)
    and the properties of its transition table, its local phase tracker and
    its dispatcher.

    Modelling conventions.
    - A JavaScript value that is a string or [undefined] is an
      [option string]; [None] is [undefined].
    - [this.transitions] and the shared-state objects are JavaScript objects
      used as maps from string keys; they are [gmap]s of their own
      properties.  A read [this.transitions[name]] that finds no own
      property goes on to [Object.prototype] ([get_property]): a phase
      named like one of its members reads that member.  Every array stored
      in [this.transitions] belongs to one key only.
    - [this.scope] is only ever asked whether a name is bound to a method; it
      is the set of the names that are.  A phase method is application code:
      its call is recorded, with its arguments, in the list of external
      calls, and it is taken to return without touching the machine.
    - [gapi.hangout.data.submitDelta] is a request to the session layer; it
      is recorded in the same list.  [gapi.hangout.data.getState()] is the
      snapshot handed to [begin].
    - A [throw] ends the running call; the fields written before it keep
      their new values. *)

From stdpp Require Import gmap strings list.
From Equations Require Import Equations.

Local Open Scope string_scope.
Local Open Scope list_scope.

(** ** JavaScript values *)

Module JS.

(** [ToString] of a string-or-undefined value, as used for a property key
    and by [+] on strings. *)
Definition to_string (v : option string) : string :=
  match v with
  | Some s => s
  | None => "undefined"
  end.

(** [ToBoolean]: [undefined] and the empty string are falsy. *)
Definition truthy (v : option string) : bool :=
  match v with
  | Some s => negb (String.eqb s "")
  | None => false
  end.

(** [a == b] between a string and a string-or-undefined value. *)
Definition str_eq (a : string) (b : option string) : bool :=
  match b with
  | Some s => String.eqb a s
  | None => false
  end.

(** [a == b] between a string-or-undefined value and a string. *)
Definition eq_str (a : option string) (b : string) : bool := str_eq b a.

(** [undefined == b] for a string-or-undefined value [b]. *)
Definition undefined_eq (b : option string) : bool :=
  match b with
  | Some _ => false
  | None => true
  end.

(** What a read [o[name]] gives on an object that holds arrays of strings:
    the object's own array, a member inherited from [Object.prototype] (a
    method, with its [length], or the object behind [__proto__]), or
    [undefined]. *)
Inductive inherited : Type :=
| Method (length : nat)
| PrototypeObject.

Inductive property : Type :=
| OwnArray (l : list string)
| Inherited (i : inherited)
| NoProperty.

(** The members every object inherits from [Object.prototype]: those of
    ECMAScript 5.1 (15.2.4) and the [__proto__], [__defineGetter__],
    [__defineSetter__], [__lookupGetter__] and [__lookupSetter__] members
    of the browsers' engines. *)
Definition Object_prototype : gmap string inherited :=
  list_to_map
    [ ("constructor", Method 1);
      ("toString", Method 0);
      ("toLocaleString", Method 0);
      ("valueOf", Method 0);
      ("hasOwnProperty", Method 1);
      ("isPrototypeOf", Method 1);
      ("propertyIsEnumerable", Method 1);
      ("__defineGetter__", Method 2);
      ("__defineSetter__", Method 2);
      ("__lookupGetter__", Method 1);
      ("__lookupSetter__", Method 1);
      ("__proto__", PrototypeObject) ].

(** [o[name]]: the own property, else the inherited member, else
    [undefined]. *)
Definition get_property (o : gmap string (list string)) (name : string)
  : property :=
  match o !! name with
  | Some l => OwnArray l
  | None =>
      match Object_prototype !! name with
      | Some i => Inherited i
      | None => NoProperty
      end
  end.

(** What a [throw] carries: the string thrown by the program, or the
    [TypeError] raised by the engine on a property read of [undefined] or
    on a call of something that is not a function. *)
Inductive thrown : Type :=
| ThrowString (msg : string)
| TypeError.

(** How a call ends. *)
Inductive completion (A : Type) : Type :=
| Normal (a : A)
| Throw (e : thrown).
Global Arguments Normal {A} a.
Global Arguments Throw {A} e.

End JS.
Export JS.

(** ** Data model *)

(** [kungfuters.StateMachinePlus.prototype.INITIAL_PHASE] *)
Definition INITIAL_PHASE : string := "ksmp_initial_phase".

(** The fields the constructor sets on [this]. *)
Record StateMachinePlus : Type := {
  localPhase : option string;
  scope : gset string;
  phaseMethodPrefix : string;
  transitions : gmap string (list string);
  phaseKey : string;
}.

(** One element of the [adds] array of a state-change notification. *)
Record added : Type := { key : string; value : string }.

(** Calls that leave the component. *)
Inductive call : Type :=
| PhaseMethod (methodName : string) (state : gmap string string)
    (isInitialPhase : bool)
| SubmitDelta (adds : gmap string string) (removes : list string).

(** The machine together with the external calls made so far, oldest
    first. *)
Record world : Type := { this : StateMachinePlus; calls : list call }.

(** The overrides a caller may pass to the constructor. *)
Record props : Type := {
  props_localPhase : option (option string);
  props_scope : option (gset string);
  props_phaseMethodPrefix : option string;
  props_transitions : option (gmap string (list string));
  props_phaseKey : option string;
}.

Definition no_props : props :=
  {| props_localPhase := None; props_scope := None;
     props_phaseMethodPrefix := None; props_transitions := None;
     props_phaseKey := None |}.

(** The constructor; [window] is the set of global function names. *)
Definition new_StateMachinePlus (window : gset string) (p : props)
  : StateMachinePlus :=
  {| localPhase := default (Some INITIAL_PHASE) (props_localPhase p);
     scope := default window (props_scope p);
     phaseMethodPrefix := default "_phase_" (props_phaseMethodPrefix p);
     transitions := default ∅ (props_transitions p);
     phaseKey := default "phase" (props_phaseKey p) |}.

(** ** A monad for calls that write fields, call out and may throw *)

Definition js (A : Type) : Type := world → completion A * world.

Global Instance js_ret : MRet js := λ A a w, (Normal a, w).

Global Instance js_bind : MBind js := λ A B k c w,
  match c w with
  | (Normal a, w') => k a w'
  | (Throw e, w') => (Throw e, w')
  end.

Definition throw {A} (e : thrown) : js A := λ w, (Throw e, w).

Definition get_this : js StateMachinePlus := λ w, (Normal (this w), w).

Definition set_this (f : StateMachinePlus → StateMachinePlus) : js unit :=
  λ w, (Normal tt, {| this := f (this w); calls := calls w |}).

Definition call_out (c : call) : js unit :=
  λ w, (Normal tt, {| this := this w; calls := calls w ++ [c] |}).

Definition lift {A} (r : completion A) : js A := λ w, (r, w).

(** ** Transition table *)

Definition set_transitions (t : gmap string (list string))
    (m : StateMachinePlus) : StateMachinePlus :=
  {| localPhase := localPhase m; scope := scope m;
     phaseMethodPrefix := phaseMethodPrefix m;
     transitions := t; phaseKey := phaseKey m |}.

Definition set_localPhase (p : option string)
    (m : StateMachinePlus) : StateMachinePlus :=
  {| localPhase := p; scope := scope m;
     phaseMethodPrefix := phaseMethodPrefix m;
     transitions := transitions m; phaseKey := phaseKey m |}.

(** The table with [to] appended to the list of [from], a new list where
    [from] has none. *)
Definition pushed (m : StateMachinePlus) (from to : string)
  : StateMachinePlus :=
  let lst := default [] (transitions m !! from) in
  let lst := lst ++ [to] in
  set_transitions (<[from := lst]> (transitions m)) m.

(** Lines 99-104 of [addTransition]: fetch the list or, where the read
    gives [undefined], create it; push [to]; store the list back.  An
    inherited member is not [undefined] and has no [push]: the call of
    [list.push] is a [TypeError], before anything is stored. *)
Definition push_transition (m : StateMachinePlus) (from to : string)
  : completion StateMachinePlus :=
  match get_property (transitions m) from with
  | NoProperty =>
      Normal (set_transitions (<[from := [] ++ [to]]> (transitions m)) m)
  | OwnArray lst =>
      Normal (set_transitions (<[from := lst ++ [to]]> (transitions m)) m)
  | Inherited _ => Throw TypeError
  end.

(** The recursive call of [addTransition] is made on [INITIAL_PHASE] from
    any other phase, and never from [INITIAL_PHASE]. *)
Definition steps_to_initial (from : string) : nat :=
  if decide (from = INITIAL_PHASE) then 0 else 1.

(** [addTransition(from, to)]: how the call ends, and the machine it
    leaves. *)
Equations? addTransition_call (m : StateMachinePlus) (from to : string)
  : completion unit * StateMachinePlus by wf (steps_to_initial from) lt :=
  addTransition_call m from to with push_transition m from to => {
    | Throw e := (Throw e, m)
    | Normal m' with decide (from = INITIAL_PHASE) => {
      | left _ := (Normal tt, m')
      | right _ := addTransition_call m' INITIAL_PHASE from
    }
  }.
Proof.
  unfold steps_to_initial.
  rewrite decide_True by reflexivity.
  rewrite decide_False by assumption.
  lia.
Qed.

(** The machine a call of [addTransition] leaves, however it ends. *)
Definition addTransition (m : StateMachinePlus) (from to : string)
  : StateMachinePlus :=
  (addTransition_call m from to).2.

(** The loop of [_validateTransition]:
    [for (i = 0; !valid && i < validTransitions.length; i++)
       valid = validTransitions[i] == to]. *)
Fixpoint validate_loop (valid : bool) (validTransitions : list string)
    (to : option string) : bool :=
  if valid then valid
  else match validTransitions with
       | [] => valid
       | x :: rest => validate_loop (str_eq x to) rest to
       end.

(** The same loop on an inherited method: it runs over the method's
    [length], and every [validTransitions[i]] is [undefined]. *)
Fixpoint validate_loop_inherited (valid : bool) (length : nat)
    (to : option string) : bool :=
  if valid then valid
  else match length with
       | 0 => valid
       | S rest => validate_loop_inherited (undefined_eq to) rest to
       end.

(** [_validateTransition]: reading [.length] of [undefined] is a
    [TypeError]; the object behind [__proto__] has no [length], and
    [0 < undefined] ends the loop at once. *)
Definition _validateTransition (m : StateMachinePlus)
    (from to : option string) : completion bool :=
  match get_property (transitions m) (to_string from) with
  | NoProperty => Throw TypeError
  | OwnArray validTransitions =>
      Normal (validate_loop false validTransitions to)
  | Inherited (Method length) =>
      Normal (validate_loop_inherited false length to)
  | Inherited PrototypeObject => Normal false
  end.

(** ** Global and local phase changes *)

(** [nextPhase(phase, adds, removes)]; an omitted [adds] or [removes] is
    [None]. *)
Definition nextPhase (phase : string) (adds : option (gmap string string))
    (removes : option (list string)) : js unit :=
  let adds := default ∅ adds in
  let removes := default [] removes in
  let adds := <["phase" := phase]> adds in
  call_out (SubmitDelta adds removes).

(** [_nextLocalPhase(state, isInitialPhase)] *)
Definition _nextLocalPhase (state : gmap string string)
    (isInitialPhase : bool) : js unit :=
  set_this (set_localPhase (state !! "phase"));;
  m ← get_this;
  let methodName := phaseMethodPrefix m +:+ to_string (state !! "phase") in
  if decide (methodName ∈ scope m)
  then call_out (PhaseMethod methodName state isInitialPhase)
  else throw (ThrowString ("Undefined phase function: " +:+ methodName)).

(** ** Dispatcher *)

(** The test of line 184:
    [typeof state.phase == "undefined" || !state.phase || state.phase == ""]. *)
Definition no_phase (v : option string) : bool :=
  match v with None => true | Some _ => false end
  || negb (truthy v)
  || eq_str v "".

(** Lines 184-190 of [onStateChange], run for the first element of [adds]
    whose key is the phase key.  The value is the [state] object as the
    call leaves it on return; a throw carries no value, and [state_left]
    gives the object for every way the call ends. *)
Definition on_phase_key (state : gmap string string)
  : js (gmap string string) :=
  let state :=
    if no_phase (state !! "phase")
    then <["phase" := INITIAL_PHASE]> state else state in
  m ← get_this;
  valid ← lift (_validateTransition m (localPhase m) (state !! "phase"));
  if (valid : bool) then
    let isInitialPhase := eq_str (localPhase m) INITIAL_PHASE in
    _nextLocalPhase state isInitialPhase;;
    mret state
  else mret state.

(** The [for] loop of [onStateChange] over [adds], left by [break] at the
    first phase key. *)
Fixpoint onStateChange_loop (adds : list added)
    (state : gmap string string) : js (gmap string string) :=
  match adds with
  | [] => mret state
  | a :: rest =>
      m ← get_this;
      if String.eqb (key a) (phaseKey m)
      then on_phase_key state
      else onStateChange_loop rest state
  end.

(** [onStateChange(adds, removes, state, metaData)] *)
Definition onStateChange (adds : list added) (removes : list string)
    (state : gmap string string)
    (metaData : gmap string (gmap string string))
  : js (gmap string string) :=
  onStateChange_loop adds state.

(** [begin(firstPhase)], with the snapshot [gapi.hangout.data.getState()]
    returns. *)
Definition begin (getState : gmap string string)
    (firstPhase : option string) : js unit :=
  match firstPhase with
  | None =>
      throw (ThrowString
        "Must pass a firstPhase to StateMachinePlus.begin(firstPhase)")
  | Some firstPhase =>
      let state := getState in
      let inProgress :=
        truthy (state !! "phase")
        && negb (str_eq INITIAL_PHASE (state !! "phase")) in
      if inProgress
      then _nextLocalPhase state true
      else nextPhase firstPhase None None
  end.

(** The world a call leaves behind, however it ends: the session layer's
    next callback runs in it. *)
Definition after {A} (c : js A) (w : world) : world := snd (c w).

(** How the call ended. *)
Definition outcome {A} (c : js A) (w : world) : completion A := fst (c w).

(** ** Vocabulary of the statements *)

(** [(from, to)] is a registered transition: [to] occurs in the list stored
    under [from]. *)
Definition registered (m : StateMachinePlus) (from to : string) : Prop :=
  ∃ l, transitions m !! from = Some l ∧ to ∈ l.

(** The notification says that the phase key changed and the shared state
    now holds phase [Q]. *)
Definition announces (m : StateMachinePlus) (adds : list added)
    (state : gmap string string) (Q : string) : Prop :=
  (∃ a, a ∈ adds ∧ key a = phaseKey m) ∧ state !! "phase" = Some Q.

(** [registered], as a test. *)
Definition registeredb (m : StateMachinePlus) (from to : string) : bool :=
  match transitions m !! from with
  | Some l => bool_decide (to ∈ l)
  | None => false
  end.

(** The name under which the method of a phase is looked up. *)
Definition method_of (m : StateMachinePlus) (phase : string) : string :=
  phaseMethodPrefix m +:+ phase.

(** [from] can be the source of an [addTransition] call: it has a list
    of its own, or it is not the name of an inherited member. *)
Definition usable (m : StateMachinePlus) (from : string) : Prop :=
  is_Some (transitions m !! from) ∨ Object_prototype !! from = None.

Global Instance usable_dec (m : StateMachinePlus) (from : string)
  : Decision (usable m from).
Proof. unfold usable. apply _. Defined.

(** A run of [addTransition] calls, in order, as a [setup] function makes
    them: the first call that throws ends the run. *)
Fixpoint addTransitions_calls (m : StateMachinePlus)
    (regs : list (string * string)) : completion unit * StateMachinePlus :=
  match regs with
  | [] => (Normal tt, m)
  | r :: regs =>
      match addTransition_call m r.1 r.2 with
      | (Normal _, m') => addTransitions_calls m' regs
      | (Throw e, m') => (Throw e, m')
      end
  end.

(** The machine the run leaves, however it ends. *)
Definition addTransitions (m : StateMachinePlus)
    (regs : list (string * string)) : StateMachinePlus :=
  (addTransitions_calls m regs).2.

(** The table of the README: phase1 → phase2 → phase3, with the methods of
    the three phases defined globally. *)
Definition readme_machine : StateMachinePlus :=
  addTransitions
    (new_StateMachinePlus
       {[ "_phase_phase1"; "_phase_phase2"; "_phase_phase3" ]} no_props)
    [("phase1", "phase2"); ("phase2", "phase3")].

(** The machine of the README, with the method of its second phase left
    out. *)
Definition readme_machine_without_phase2 : StateMachinePlus :=
  addTransitions
    (new_StateMachinePlus {[ "_phase_phase1"; "_phase_phase3" ]} no_props)
    [("phase1", "phase2"); ("phase2", "phase3")].

(** ** Runs of notifications *)

(** Lines 184-186 of [onStateChange] on the [state] object. *)
Definition normalize (state : gmap string string) : gmap string string :=
  if no_phase (state !! "phase")
  then <["phase" := INITIAL_PHASE]> state else state.

(** The phase a notification claims, once lines 184-186 have run. *)
Definition claimed_phase (state : gmap string string) : string :=
  if no_phase (state !! "phase")
  then INITIAL_PHASE else to_string (state !! "phase").


(** The arguments of one call of the state-change listener. *)
Record notification : Type := {
  n_adds : list added;
  n_removes : list string;
  n_state : gmap string string;
  n_metaData : gmap string (gmap string string);
}.

(** The session layer calls the listener once per notification; a call
    that ended in a throw does not keep the next one from running. *)
Definition deliver (n : notification) (w : world) : world :=
  after (onStateChange (n_adds n) (n_removes n) (n_state n) (n_metaData n)) w.

Definition deliver_all (ns : list notification) (w : world) : world :=
  foldl (λ w n, deliver n w) w ns.

(** [adds] holds an element whose key is the phase key. *)
Definition has_phase_key (m : StateMachinePlus) (adds : list added) : Prop :=
  ∃ a, a ∈ adds ∧ key a = phaseKey m.

(** One move of the tracker along the table: from the phase [a] (the key
    is [ToString a]) to a phase registered after it. *)
Definition step (m : StateMachinePlus) (a b : option string) : Prop :=
  ∃ Q, b = Some Q ∧ registered m (to_string a) Q.

(** The call is a call of the method of the phase that the [state] handed
    to it holds. *)
Definition calls_method_of_state (m : StateMachinePlus) (c : call) : Prop :=
  ∃ Q state flag,
    c = PhaseMethod (method_of m Q) state flag ∧ state !! "phase" = Some Q.

(** ** Start-up *)

(** The listeners the component registers with the Hangout API:
    [gapi.hangout.addApiReadyListener] and
    [gapi.hangout.data.addStateChangeListener]. *)
Inductive listener : Type :=
| ApiReadyListener
| StateChangeListener.

(** The machine with the constructor's private flag and the listeners it
    has registered, oldest first. *)
Record instance : Type := {
  machine : StateMachinePlus;
  _setupComplete : bool;
  listeners : list listener;
}.

(** The constructor, lines 25-58: the fields, the flag, and the listener
    for the API's readiness. *)
Definition construct (window : gset string) (p : props) : instance :=
  {| machine := new_StateMachinePlus window p;
     _setupComplete := false;
     listeners := [ApiReadyListener] |}.

(** [onApiReady]; [setup] is the hook the application passed to the
    constructor, run on [this]. *)
Definition onApiReady (setup : instance → instance) (i : instance)
  : instance :=
  if negb (_setupComplete i) then
    let i := {| machine := machine i; _setupComplete := true;
                listeners := listeners i |} in
    let i := {| machine := machine i; _setupComplete := _setupComplete i;
                listeners := listeners i ++ [StateChangeListener] |} in
    setup i
  else i.

(** The documented [setup]: a run of [this.addTransition] calls. *)
Definition setup_transitions (regs : list (string * string)) (i : instance)
  : instance :=
  {| machine := addTransitions (machine i) regs;
     _setupComplete := _setupComplete i;
     listeners := listeners i |}.

(** ** The transition table *)

Section TransitionTable.

Implicit Types (m : StateMachinePlus) (from to : string).

Lemma validate_loop_true l v : validate_loop true l v = true.
Proof. by destruct l. Qed.

Lemma validate_loop_elem_of l to :
  validate_loop false l (Some to) = bool_decide (to ∈ l).
Proof.
  induction l as [|x l IH]; cbn [validate_loop str_eq].
  - symmetry. apply bool_decide_eq_false. by intros ?%elem_of_nil.
  - destruct (String.eqb_spec x to) as [->|Hne].
    + rewrite validate_loop_true. symmetry.
      apply bool_decide_eq_true. by left.
    + rewrite IH. apply bool_decide_ext. rewrite elem_of_cons.
      split; [by right | intros [?|?]; [congruence | done]].
Qed.

Lemma validate_loop_inherited_defined n to :
  validate_loop_inherited false n (Some to) = false.
Proof. induction n as [|n IH]; [done|]. simpl. apply IH. Qed.

Lemma get_property_own (o : gmap string (list string)) name l :
  o !! name = Some l → get_property o name = OwnArray l.
Proof. intros H. unfold get_property. by rewrite H. Qed.

Lemma validate_registered_source m from to l :
  transitions m !! from = Some l →
  _validateTransition m (Some from) (Some to) = Normal (bool_decide (to ∈ l)).
Proof.
  intros Hl. unfold _validateTransition; simpl.
  by rewrite (get_property_own _ _ l), validate_loop_elem_of.
Qed.

Lemma validate_unregistered_source m from (v : option string) :
  transitions m !! from = None →
  Object_prototype !! from = None →
  _validateTransition m (Some from) v = Throw TypeError.
Proof.
  intros Hl Hp. unfold _validateTransition, get_property; simpl.
  by rewrite Hl, Hp.
Qed.

Lemma validate_registered m from to :
  registered m from to →
  _validateTransition m (Some from) (Some to) = Normal true.
Proof.
  intros (l & Hl & Hin). rewrite (validate_registered_source _ _ _ l Hl).
  f_equal. by apply bool_decide_eq_true.
Qed.

Lemma validate_not_registered m from to :
  ¬ registered m from to →
  _validateTransition m (Some from) (Some to) = Normal false
  ∨ _validateTransition m (Some from) (Some to) = Throw TypeError.
Proof.
  intros Hn. destruct (transitions m !! from) as [l|] eqn:Hl.
  - left. rewrite (validate_registered_source _ _ _ l Hl). f_equal.
    apply bool_decide_eq_false. intros Hin. apply Hn. by exists l.
  - unfold _validateTransition, get_property; simpl. rewrite Hl.
    destruct (Object_prototype !! from) as [[n|]|]; [left|left|right].
    + by rewrite validate_loop_inherited_defined.
    + done.
    + done.
Qed.

Lemma registered_push m from to : registered (pushed m from to) from to.
Proof.
  unfold registered, pushed; simpl.
  eexists. rewrite lookup_insert_eq. split; [done|].
  apply elem_of_app. right. by apply list_elem_of_singleton.
Qed.

Lemma registered_push_mono m from to a b :
  registered m a b → registered (pushed m from to) a b.
Proof.
  intros (l & Hl & Hin). unfold registered, pushed; simpl.
  destruct (decide (from = a)) as [->|Hne].
  - rewrite lookup_insert_eq, Hl; simpl. eexists; split; [done|].
    apply elem_of_app. by left.
  - rewrite lookup_insert_ne by done. by exists l.
Qed.

Lemma usable_INITIAL m : usable m INITIAL_PHASE.
Proof. right. reflexivity. Qed.

Lemma usable_pushed m from to k : usable m k → usable (pushed m from to) k.
Proof.
  intros [Hown | Hp]; [left | by right].
  unfold pushed; simpl. rewrite lookup_insert.
  destruct (decide (from = k)); [by eexists | done].
Qed.

Lemma usable_pushed_source m from to : usable (pushed m from to) from.
Proof. left. unfold pushed; simpl. rewrite lookup_insert_eq. by eexists. Qed.

(** Lines 99-104 return with the list stored for a usable source, and end
    in the [TypeError] for any other. *)
Lemma push_transition_usable m from to :
  usable m from → push_transition m from to = Normal (pushed m from to).
Proof.
  unfold usable, push_transition, get_property, pushed.
  intros [[l Hl] | Hp].
  - by rewrite Hl.
  - rewrite Hp. by destruct (transitions m !! from).
Qed.

Lemma push_transition_unusable m from to :
  ¬ usable m from → push_transition m from to = Throw TypeError.
Proof.
  unfold usable, push_transition, get_property. intros Hn.
  destruct (transitions m !! from) as [l|]; [destruct Hn; left; by eexists|].
  destruct (Object_prototype !! from) as [i|]; [done|].
  destruct Hn. by right.
Qed.

Lemma addTransition_call_initial m to :
  addTransition_call m INITIAL_PHASE to
  = (Normal tt, pushed m INITIAL_PHASE to).
Proof.
  simp addTransition_call.
  rewrite push_transition_usable by apply usable_INITIAL.
  simp addTransition_call.
  destruct (decide (INITIAL_PHASE = INITIAL_PHASE)) as [Heq|Hn]; [|done].
  by simp addTransition_call.
Qed.

Lemma addTransition_call_other m from to :
  from ≠ INITIAL_PHASE →
  usable m from →
  addTransition_call m from to
  = (Normal tt, pushed (pushed m from to) INITIAL_PHASE from).
Proof.
  intros Hne Hus. simp addTransition_call.
  rewrite push_transition_usable by done.
  simp addTransition_call.
  destruct (decide (from = INITIAL_PHASE)) as [|Hn]; [done|].
  simp addTransition_call.
  rewrite push_transition_usable by apply usable_INITIAL.
  simp addTransition_call.
  destruct (decide (INITIAL_PHASE = INITIAL_PHASE)) as [Heq|Hn']; [|done].
  by simp addTransition_call.
Qed.

Lemma addTransition_call_unusable m from to :
  ¬ usable m from → addTransition_call m from to = (Throw TypeError, m).
Proof.
  intros Hn. simp addTransition_call.
  rewrite push_transition_unusable by done. by simp addTransition_call.
Qed.

Lemma addTransition_initial m to :
  addTransition m INITIAL_PHASE to = pushed m INITIAL_PHASE to.
Proof. unfold addTransition. by rewrite addTransition_call_initial. Qed.

Lemma addTransition_other m from to :
  from ≠ INITIAL_PHASE →
  usable m from →
  addTransition m from to = pushed (pushed m from to) INITIAL_PHASE from.
Proof.
  intros. unfold addTransition. by rewrite addTransition_call_other.
Qed.

Lemma addTransition_unusable m from to :
  ¬ usable m from → addTransition m from to = m.
Proof.
  intros. unfold addTransition. by rewrite addTransition_call_unusable.
Qed.

Lemma addTransition_call_returns m from to :
  (addTransition_call m from to).1 = Normal tt ↔ usable m from.
Proof.
  destruct (decide (usable m from)) as [Hus|Hn].
  - split; [done|intros _].
    destruct (decide (from = INITIAL_PHASE)) as [->|Hne].
    + by rewrite addTransition_call_initial.
    + by rewrite addTransition_call_other.
  - rewrite addTransition_call_unusable by done. split; [done|]. done.
Qed.

Lemma registered_addTransition_initial m from to :
  from ≠ INITIAL_PHASE →
  usable m from →
  registered (addTransition m from to) INITIAL_PHASE from.
Proof.
  intros Hne Hus. rewrite addTransition_other by done. apply registered_push.
Qed.

Lemma registered_addTransition_mono m from to a b :
  registered m a b → registered (addTransition m from to) a b.
Proof.
  intros Hr. destruct (decide (usable m from)) as [Hus|Hn].
  - destruct (decide (from = INITIAL_PHASE)) as [->|Hne].
    + rewrite addTransition_initial. by apply registered_push_mono.
    + rewrite addTransition_other by done.
      by do 2 apply registered_push_mono.
  - by rewrite addTransition_unusable.
Qed.

Lemma addTransitions_cons_usable m (r : string * string) regs :
  usable m r.1 →
  addTransitions_calls m (r :: regs)
  = addTransitions_calls (addTransition m r.1 r.2) regs.
Proof.
  intros Hus. cbn [addTransitions_calls]. unfold addTransition.
  pose proof (proj2 (addTransition_call_returns m r.1 r.2) Hus) as Hret.
  destruct (addTransition_call m r.1 r.2) as [[[]|e] m']; [done|done].
Qed.

Lemma addTransitions_cons_unusable m (r : string * string) regs :
  ¬ usable m r.1 →
  addTransitions_calls m (r :: regs) = (Throw TypeError, m).
Proof.
  intros Hn. cbn [addTransitions_calls].
  by rewrite addTransition_call_unusable.
Qed.

(** A run that returned made every one of its calls. *)
Lemma addTransitions_calls_returned m (r : string * string) regs :
  (addTransitions_calls m (r :: regs)).1 = Normal tt →
  usable m r.1
  ∧ (addTransitions_calls (addTransition m r.1 r.2) regs).1 = Normal tt
  ∧ addTransitions m (r :: regs)
    = addTransitions (addTransition m r.1 r.2) regs.
Proof.
  intros Hret. destruct (decide (usable m r.1)) as [Hus|Hn].
  - unfold addTransitions.
    rewrite addTransitions_cons_usable in Hret |- * by done. done.
  - by rewrite addTransitions_cons_unusable in Hret.
Qed.

Lemma registered_addTransitions_mono regs m a b :
  registered m a b → registered (addTransitions m regs) a b.
Proof.
  revert m. induction regs as [|r regs IH]; intros m Hr; [done|].
  unfold addTransitions. destruct (decide (usable m r.1)) as [Hus|Hn].
  - rewrite addTransitions_cons_usable by done.
    apply IH. by apply registered_addTransition_mono.
  - by rewrite addTransitions_cons_unusable.
Qed.

(** [addTransition] writes the table only. *)
Lemma addTransition_frame m from to :
  localPhase (addTransition m from to) = localPhase m
  ∧ scope (addTransition m from to) = scope m
  ∧ phaseMethodPrefix (addTransition m from to) = phaseMethodPrefix m
  ∧ phaseKey (addTransition m from to) = phaseKey m.
Proof.
  destruct (decide (usable m from)) as [Hus|Hn].
  - destruct (decide (from = INITIAL_PHASE)) as [->|Hne].
    + by rewrite addTransition_initial.
    + by rewrite addTransition_other.
  - by rewrite addTransition_unusable.
Qed.

(** Transition closure for a set-up that returned: every source of a call
    other than the initial phase can be entered from the initial phase. *)
Lemma registered_initial_of_source (regs : list (string * string))
    m from to :
  (addTransitions_calls m regs).1 = Normal tt →
  (from, to) ∈ regs →
  from ≠ INITIAL_PHASE →
  registered (addTransitions m regs) INITIAL_PHASE from.
Proof.
  intros Hret Hin Hne. revert m Hret.
  induction regs as [|r regs IH]; intros m Hret.
  - by apply elem_of_nil in Hin.
  - apply addTransitions_calls_returned in Hret as (Hus & Hret & ->).
    apply elem_of_cons in Hin as [<-|Hin].
    + apply registered_addTransitions_mono.
      by apply registered_addTransition_initial.
    + by apply IH.
Qed.

Lemma registeredb_spec (m : StateMachinePlus) (from to : string) :
  registered m from to ↔ registeredb m from to = true.
Proof.
  unfold registered, registeredb. destruct (transitions m !! from) as [l|].
  - rewrite bool_decide_eq_true.
    split; [by intros (? & [= <-] & ?) | by exists l].
  - split; [by intros (? & [=] & ?) | done].
Qed.

Lemma not_registeredb_spec (m : StateMachinePlus) (from to : string) :
  ¬ registered m from to ↔ registeredb m from to = false.
Proof. rewrite registeredb_spec. by destruct (registeredb m from to). Qed.

End TransitionTable.

Lemma transition_closure (m : StateMachinePlus)
    (regs : list (string * string)) (from to : string) :
  (addTransitions_calls m regs).1 = Normal tt →
  (from, to) ∈ regs →
  from ≠ INITIAL_PHASE →
  _validateTransition (addTransitions m regs)
    (Some INITIAL_PHASE) (Some from) = Normal true.
Proof.
  intros Hret Hin Hne. apply validate_registered.
  by apply (registered_initial_of_source _ _ _ to).
Qed.

(** C4 (code defect): [addTransition] out of a phase named like a member
    of [Object.prototype] registers nothing.  The read of line 99 gives
    the inherited member, which is not [undefined] and has no [push]: the
    call ends in a [TypeError] at line 103, and the phase cannot be
    entered from the initial phase.  Here a set-up registers
    lobby → constructor → score. *)
Theorem addTransition_inherited_name_throws :
  let m := addTransition (new_StateMachinePlus ∅ no_props)
             "lobby" "constructor" in
  addTransition_call m "constructor" "score" = (Throw TypeError, m)
  ∧ ¬ registered (addTransition m "constructor" "score")
        INITIAL_PHASE "constructor"
  ∧ _validateTransition (addTransition m "constructor" "score")
      (Some INITIAL_PHASE) (Some "constructor") = Normal false.
Proof.
  split; [by vm_compute|]. split; [|by vm_compute].
  apply not_registeredb_spec. by vm_compute.
Qed.

(** C2 (code defect): a phase that was only ever registered as a target has
    no list of its own in the table, and validating a transition out of it
    does not answer [false]: it ends in a [TypeError], which leaves
    [onStateChange] uncaught.  Here the machine of the README has reached
    its last phase and is notified of that phase once more. *)
Theorem validate_unregistered_source_throws :
  transitions readme_machine !! "phase3" = None
  ∧ _validateTransition readme_machine (Some "phase3") (Some "phase3")
    = Throw TypeError
  ∧ outcome
      (onStateChange [ {| key := "phase"; value := "phase3" |} ] []
         {[ "phase" := "phase3" ]} ∅)
      {| this := set_localPhase (Some "phase3") readme_machine; calls := [] |}
    = Throw TypeError.
Proof. by vm_compute. Qed.

(** ** Running the dispatcher *)

Section Dispatcher.

Implicit Types (m : StateMachinePlus) (w : world) (cs : list call).
Implicit Types (state : gmap string string) (P Q : string).

Lemma no_phase_Some Q : Q ≠ "" → no_phase (Some Q) = false.
Proof.
  intros HQ. unfold no_phase, eq_str, truthy, str_eq.
  rewrite (proj2 (String.eqb_neq Q "")) by done.
  by rewrite (proj2 (String.eqb_neq "" Q)) by done.
Qed.

Lemma truthy_Some Q : Q ≠ "" → truthy (Some Q) = true.
Proof.
  intros HQ. unfold truthy.
  by rewrite (proj2 (String.eqb_neq Q "")) by done.
Qed.

(** [_nextLocalPhase] when the method of the phase is defined. *)
Lemma nextLocalPhase_defined m cs state Q flag :
  state !! "phase" = Some Q →
  method_of m Q ∈ scope m →
  _nextLocalPhase state flag {| this := m; calls := cs |} =
    (Normal tt,
     {| this := set_localPhase (Some Q) m;
        calls := cs ++ [PhaseMethod (method_of m Q) state flag] |}).
Proof.
  intros HQ Hin. unfold _nextLocalPhase, mbind, js_bind; simpl.
  rewrite HQ; simpl. fold (method_of m Q). by rewrite decide_True.
Qed.

(** [_nextLocalPhase] when it is not: the tracker is written first. *)
Lemma nextLocalPhase_undefined m cs state Q flag :
  state !! "phase" = Some Q →
  method_of m Q ∉ scope m →
  _nextLocalPhase state flag {| this := m; calls := cs |} =
    (Throw (ThrowString ("Undefined phase function: " +:+ method_of m Q)),
     {| this := set_localPhase (Some Q) m; calls := cs |}).
Proof.
  intros HQ Hin. unfold _nextLocalPhase, mbind, js_bind; simpl.
  rewrite HQ; simpl. fold (method_of m Q). by rewrite decide_False.
Qed.

(** The loop of [onStateChange] reaches lines 184-190 as soon as one
    element of [adds] has the phase key, and only then. *)
Lemma onStateChange_loop_key adds state w :
  (∃ a, a ∈ adds ∧ key a = phaseKey (this w)) →
  onStateChange_loop adds state w = on_phase_key state w.
Proof.
  intros (a & Hin & Hk).
  induction adds as [|b adds IH]; [by apply elem_of_nil in Hin|].
  cbn [onStateChange_loop]. unfold mbind, js_bind, get_this at 1.
  destruct (String.eqb_spec (key b) (phaseKey (this w))) as [|Hne]; [done|].
  apply IH. apply elem_of_cons in Hin as [->|Hin]; [done|done].
Qed.

Lemma onStateChange_loop_no_key adds state w :
  (∀ a, a ∈ adds → key a ≠ phaseKey (this w)) →
  onStateChange_loop adds state w = (Normal state, w).
Proof.
  intros Hno. induction adds as [|b adds IH]; [done|].
  cbn [onStateChange_loop]. unfold mbind, js_bind, get_this at 1.
  rewrite (proj2 (String.eqb_neq _ _)) by (apply Hno; by left).
  apply IH. intros a Ha. apply Hno. by right.
Qed.

(** A claimed phase that is a valid next phase is handed to
    [_nextLocalPhase]. *)
Lemma on_phase_key_valid m cs state P Q :
  localPhase m = Some P →
  registered m P Q →
  state !! "phase" = Some Q →
  Q ≠ "" →
  on_phase_key state {| this := m; calls := cs |} =
    (_nextLocalPhase state (String.eqb INITIAL_PHASE P);; mret state)
      {| this := m; calls := cs |}.
Proof.
  intros HP Hreg HQ Hne. unfold on_phase_key.
  rewrite HQ, no_phase_Some by done.
  unfold mbind at 1 2, js_bind at 1 2, get_this, lift; simpl.
  rewrite HQ, HP, (validate_registered _ _ _ Hreg). reflexivity.
Qed.

(** A claimed phase that is not a valid next phase leaves the world as
    it was: the call returns, or ends in the [TypeError] of
    [_validateTransition]. *)
Lemma on_phase_key_invalid m cs state P Q :
  localPhase m = Some P →
  ¬ registered m P Q →
  state !! "phase" = Some Q →
  Q ≠ "" →
  after (on_phase_key state) {| this := m; calls := cs |}
    = {| this := m; calls := cs |}.
Proof.
  intros HP Hreg HQ Hne. unfold after, on_phase_key.
  rewrite HQ, no_phase_Some by done.
  unfold mbind, js_bind, get_this, lift; simpl.
  rewrite HQ, HP.
  by destruct (validate_not_registered _ _ _ Hreg) as [-> | ->].
Qed.

End Dispatcher.

(** ** Tests for the vocabulary *)

Lemma announces_head (m : StateMachinePlus) (a : added) adds
    (state : gmap string string) (Q : string) :
  key a = phaseKey m → state !! "phase" = Some Q →
  announces m (a :: adds) state Q.
Proof. intros Hk HQ. split; [|done]. exists a. split; [by left|done]. Qed.

(** ** The dispatcher's contract *)

(** C1 (idempotent delivery): the tracker is at [P], [(P, Q)] is registered,
    [(Q, Q)] is not, [Q] is a phase name (not empty) whose method is defined
    in the scope.  The notification that the phase changed to [Q] is
    delivered twice.  The first delivery calls the method of [Q] once; the
    second delivery calls nothing; the tracker ends at [Q]. *)
Theorem idempotent_delivery (m : StateMachinePlus) (cs : list call)
    (adds : list added) (removes : list string)
    (state : gmap string string)
    (metaData : gmap string (gmap string string)) (P Q : string) :
  localPhase m = Some P →
  registered m P Q →
  ¬ registered m Q Q →
  Q ≠ "" →
  method_of m Q ∈ scope m →
  announces m adds state Q →
  let deliver := onStateChange adds removes state metaData in
  let w1 := after deliver {| this := m; calls := cs |} in
  let w2 := after deliver w1 in
  calls w1 =
    cs ++ [PhaseMethod (method_of m Q) state (String.eqb INITIAL_PHASE P)]
  ∧ calls w2 = calls w1
  ∧ localPhase (this w2) = Some Q.
Proof.
  intros HP Hreg Hnreg HQ Hdef [Hkey Hst] deliver w1 w2.
  assert (Hw1 : w1 =
    {| this := set_localPhase (Some Q) m;
       calls := cs ++ [PhaseMethod (method_of m Q) state
                         (String.eqb INITIAL_PHASE P)] |}).
  { unfold w1, deliver, after, onStateChange.
    rewrite onStateChange_loop_key by done.
    rewrite (on_phase_key_valid _ _ _ P Q) by done.
    unfold mbind, js_bind.
    by rewrite (nextLocalPhase_defined _ _ _ Q). }
  assert (Hw2 : w2 = w1).
  { unfold w2, deliver, after, onStateChange. rewrite Hw1.
    rewrite onStateChange_loop_key by done.
    by apply (on_phase_key_invalid _ _ _ Q Q). }
  rewrite Hw2, Hw1. done.
Qed.

Lemma idempotent_delivery_witness :
  let m := set_localPhase (Some "phase1") readme_machine in
  let deliver :=
    onStateChange [ {| key := "phase"; value := "phase2" |} ] []
      {[ "phase" := "phase2" ]} ∅ in
  let w1 := after deliver {| this := m; calls := [] |} in
  let w2 := after deliver w1 in
  calls w1 = [PhaseMethod "_phase_phase2" {[ "phase" := "phase2" ]} false]
  ∧ calls w2 = calls w1
  ∧ localPhase (this w2) = Some "phase2".
Proof.
  apply (idempotent_delivery
           (set_localPhase (Some "phase1") readme_machine) []
           [ {| key := "phase"; value := "phase2" |} ] []
           {[ "phase" := "phase2" ]} ∅ "phase1" "phase2").
  - reflexivity.
  - apply registeredb_spec. vm_compute. reflexivity.
  - apply not_registeredb_spec. vm_compute. reflexivity.
  - discriminate.
  - apply (bool_decide_eq_true_1 (_ ∈ _)). vm_compute. reflexivity.
  - apply announces_head; reflexivity.
Defined.

(** C3 (stale rejection): the tracker is at [P] and moves to [Q] on a valid
    notification; [(Q, P)] is not registered.  A later notification that
    claims phase [P] changes nothing: the tracker stays at [Q] and no
    method is called.  (When [Q] has no list in the table the call ends in
    the [TypeError] of [_validateTransition] rather than returning; the
    world is the same in both cases.) *)
Theorem stale_rejection (m : StateMachinePlus) (cs : list call)
    (adds adds' : list added) (removes removes' : list string)
    (state state' : gmap string string)
    (metaData metaData' : gmap string (gmap string string)) (P Q : string) :
  localPhase m = Some P →
  registered m P Q →
  ¬ registered m Q P →
  P ≠ "" →
  Q ≠ "" →
  announces m adds state Q →
  state' !! "phase" = Some P →
  let w1 := after (onStateChange adds removes state metaData)
                  {| this := m; calls := cs |} in
  let w2 := after (onStateChange adds' removes' state' metaData') w1 in
  localPhase (this w1) = Some Q
  ∧ localPhase (this w2) = Some Q
  ∧ calls w2 = calls w1
  ∧ w2 = w1.
Proof.
  intros HP Hreg Hnreg HPne HQne [Hkey Hst] Hst' w1 w2.
  assert (Hw1 : ∃ cs', w1 = {| this := set_localPhase (Some Q) m;
                              calls := cs' |}).
  { unfold w1, after, onStateChange.
    rewrite onStateChange_loop_key by done.
    rewrite (on_phase_key_valid _ _ _ P Q) by done.
    unfold mbind, js_bind.
    destruct (decide (method_of m Q ∈ scope m)) as [Hdef|Hundef].
    - rewrite (nextLocalPhase_defined _ _ _ Q) by done. by eexists.
    - rewrite (nextLocalPhase_undefined _ _ _ Q) by done. by eexists. }
  destruct Hw1 as [cs' Hw1].
  assert (Hw2 : w2 = w1).
  { unfold w2, after, onStateChange. rewrite Hw1.
    destruct (decide (Exists (λ a, key a = phaseKey m) adds')) as [Hex|Hno].
    - apply Exists_exists in Hex.
      rewrite onStateChange_loop_key by done.
      by apply (on_phase_key_invalid _ _ _ Q P).
    - rewrite onStateChange_loop_no_key; [done|].
      intros a Ha Hk. apply Hno, Exists_exists. by exists a. }
  rewrite Hw2, Hw1. done.
Qed.

Lemma stale_rejection_witness :
  let m := set_localPhase (Some "phase1") readme_machine in
  let w1 :=
    after (onStateChange [ {| key := "phase"; value := "phase2" |} ] []
             {[ "phase" := "phase2" ]} ∅) {| this := m; calls := [] |} in
  let w2 :=
    after (onStateChange [ {| key := "phase"; value := "phase1" |} ] []
             {[ "phase" := "phase1" ]} ∅) w1 in
  localPhase (this w1) = Some "phase2"
  ∧ localPhase (this w2) = Some "phase2"
  ∧ calls w2 = calls w1
  ∧ w2 = w1.
Proof.
  apply (stale_rejection
           (set_localPhase (Some "phase1") readme_machine) []
           [ {| key := "phase"; value := "phase2" |} ]
           [ {| key := "phase"; value := "phase1" |} ] [] []
           {[ "phase" := "phase2" ]} {[ "phase" := "phase1" ]} ∅ ∅
           "phase1" "phase2").
  - reflexivity.
  - apply registeredb_spec. vm_compute. reflexivity.
  - apply not_registeredb_spec. vm_compute. reflexivity.
  - discriminate.
  - discriminate.
  - apply announces_head; reflexivity.
  - reflexivity.
Defined.

(** C8 (irrelevant keys): a notification none of whose changed keys is the
    phase key does nothing: the call returns with the machine, the list of
    external calls and the [state] object as they were.  Lines 184-190,
    and with them [_validateTransition], are not run: the result is the
    same on every table, also where validation would end in an error. *)
Theorem irrelevant_keys_ignored (adds : list added) (removes : list string)
    (state : gmap string string)
    (metaData : gmap string (gmap string string)) (w : world) :
  (∀ a, a ∈ adds → key a ≠ phaseKey (this w)) →
  onStateChange adds removes state metaData w = (Normal state, w).
Proof. intros Hno. by apply onStateChange_loop_no_key. Qed.

Lemma irrelevant_keys_ignored_witness :
  let w := {| this := set_localPhase (Some "phase3") readme_machine;
              calls := [] |} in
  onStateChange
    [ {| key := "score"; value := "7" |}; {| key := "turn"; value := "a" |} ]
    [] {[ "phase" := "phase2"; "score" := "7" ]} ∅ w
  = (Normal {[ "phase" := "phase2"; "score" := "7" ]}, w).
Proof.
  apply (irrelevant_keys_ignored
    [ {| key := "score"; value := "7" |}; {| key := "turn"; value := "a" |} ]).
  intros a Ha.
  apply elem_of_cons in Ha as [->|Ha]; [discriminate|].
  apply elem_of_cons in Ha as [->|Ha]; [discriminate|].
  by apply elem_of_nil in Ha.
Defined.

(** C7 (global advance): [nextPhase] stores the phase under the key
    ["phase"] of the adds, keeps every other added key and the removes,
    and hands the delta to [submitDelta]; that is its one external call.
    It returns with the machine, its tracker included, as it was and calls
    no phase method. *)
Theorem nextPhase_only_submits (phase : string)
    (adds : option (gmap string string)) (removes : option (list string))
    (w : world) :
  ∃ delta : gmap string string,
    nextPhase phase adds removes w =
      (Normal tt,
       {| this := this w;
          calls := calls w ++ [SubmitDelta delta (default [] removes)] |})
    ∧ delta !! "phase" = Some phase
    ∧ ∀ k, k ≠ "phase" → delta !! k = default ∅ adds !! k.
Proof.
  exists (<["phase" := phase]> (default ∅ adds)). split; [done|]. split.
  - apply lookup_insert_eq.
  - intros k Hk. by apply lookup_insert_ne.
Qed.

(** C5 (fast-forward): [begin(X)] on a snapshot whose phase [Y] is present,
    not empty and not the initial phase, with the method of [Y] defined in
    the scope, sets the tracker to [Y] ([localPhase] is [Y] afterwards) and
    calls the method of [Y] with the snapshot and [isInitialPhase = true];
    that is its one external call, so nothing is written to the shared
    state. *)
Theorem begin_fast_forward (m : StateMachinePlus) (cs : list call)
    (X Y : string) (state : gmap string string) :
  state !! "phase" = Some Y →
  Y ≠ "" →
  Y ≠ INITIAL_PHASE →
  method_of m Y ∈ scope m →
  begin state (Some X) {| this := m; calls := cs |} =
    (Normal tt,
     {| this := set_localPhase (Some Y) m;
        calls := cs ++ [PhaseMethod (method_of m Y) state true] |})
  ∧ localPhase
      (this (after (begin state (Some X)) {| this := m; calls := cs |}))
    = Some Y.
Proof.
  intros HY Hne Hinit Hdef.
  assert (Hrun : begin state (Some X) {| this := m; calls := cs |} =
    (Normal tt,
     {| this := set_localPhase (Some Y) m;
        calls := cs ++ [PhaseMethod (method_of m Y) state true] |})).
  { unfold begin.
    rewrite HY, truthy_Some by done. unfold str_eq.
    rewrite (proj2 (String.eqb_neq INITIAL_PHASE Y)) by done. simpl.
    by apply nextLocalPhase_defined. }
  split; [done|]. unfold after. by rewrite Hrun.
Qed.

Lemma begin_fast_forward_witness :
  begin {[ "phase" := "phase2" ]} (Some "phase1")
    {| this := readme_machine; calls := [] |} =
    (Normal tt,
     {| this := set_localPhase (Some "phase2") readme_machine;
        calls := [PhaseMethod "_phase_phase2" {[ "phase" := "phase2" ]}
                    true] |})
  ∧ localPhase
      (this (after (begin {[ "phase" := "phase2" ]} (Some "phase1"))
               {| this := readme_machine; calls := [] |}))
    = Some "phase2".
Proof.
  apply (begin_fast_forward readme_machine [] "phase1" "phase2").
  - reflexivity.
  - discriminate.
  - discriminate.
  - apply (bool_decide_eq_true_1 (_ ∈ _)). vm_compute. reflexivity.
Defined.

(** C6 (fresh start): [begin(X)] on a snapshot with no phase (absent or
    empty) or with the initial phase submits the delta [{phase: X}] with
    no removes; that is its one external call, so the method of [X] is not
    called, and the machine, its tracker included, is as it was. *)
Theorem begin_fresh_start (w : world) (X : string)
    (state : gmap string string) :
  state !! "phase" = None
  ∨ state !! "phase" = Some ""
  ∨ state !! "phase" = Some INITIAL_PHASE →
  begin state (Some X) w =
    (Normal tt,
     {| this := this w;
        calls := calls w ++ [SubmitDelta {[ "phase" := X ]} []] |}).
Proof.
  intros [H | [H | H]]; unfold begin; rewrite H; simpl;
    unfold nextPhase; simpl; by rewrite insert_empty.
Qed.

Lemma begin_fresh_start_witness :
  begin ∅ (Some "phase1") {| this := readme_machine; calls := [] |} =
    (Normal tt,
     {| this := readme_machine;
        calls := [SubmitDelta {[ "phase" := "phase1" ]} []] |}).
Proof.
  apply (begin_fresh_start {| this := readme_machine; calls := [] |}
           "phase1" ∅).
  left. reflexivity.
Defined.

(** ** Configuration errors *)

(** C9 (configuration errors are thrown to the caller): [begin] with
    [firstPhase] omitted throws its message, on every machine and every
    snapshot.  When the scope defines no method for a phase [Q],
    [_nextLocalPhase] throws ["Undefined phase function: <name>"]; so does
    [onStateChange] on a notification of a valid transition to [Q], and so
    does the fast-forward of [begin] into [Q], nothing in between catching
    it. *)
Theorem configuration_errors_throw (m : StateMachinePlus) (cs : list call)
    (adds : list added) (removes : list string)
    (state getState : gmap string string)
    (metaData : gmap string (gmap string string)) (P Q X : string)
    (isInitialPhase : bool) :
  let w := {| this := m; calls := cs |} in
  let msg := "Undefined phase function: " +:+ method_of m Q in
  outcome (begin getState None) w =
    Throw (ThrowString
      "Must pass a firstPhase to StateMachinePlus.begin(firstPhase)")
  ∧ (localPhase m = Some P →
     registered m P Q →
     Q ≠ "" →
     announces m adds state Q →
     method_of m Q ∉ scope m →
     outcome (_nextLocalPhase state isInitialPhase) w
     = Throw (ThrowString msg)
     ∧ outcome (onStateChange adds removes state metaData) w
       = Throw (ThrowString msg)
     ∧ (Q ≠ INITIAL_PHASE →
        outcome (begin state (Some X)) w = Throw (ThrowString msg))).
Proof.
  intros w msg. split; [reflexivity|].
  intros HP Hreg HQ [Hkey Hst] Hundef. unfold outcome.
  split; [|split].
  - unfold w. by rewrite (nextLocalPhase_undefined _ _ _ Q).
  - unfold w, onStateChange.
    rewrite onStateChange_loop_key by done.
    rewrite (on_phase_key_valid _ _ _ P Q) by done.
    unfold mbind, js_bind.
    by rewrite (nextLocalPhase_undefined _ _ _ Q).
  - intros Hinit. unfold w, begin.
    rewrite Hst, truthy_Some by done. unfold str_eq.
    rewrite (proj2 (String.eqb_neq INITIAL_PHASE Q)) by done. simpl.
    by rewrite (nextLocalPhase_undefined _ _ _ Q).
Qed.

Lemma configuration_errors_throw_witness :
  let w := {| this := set_localPhase (Some "phase1")
                        readme_machine_without_phase2;
              calls := [] |} in
  let state : gmap string string := {[ "phase" := "phase2" ]} in
  let msg := "Undefined phase function: _phase_phase2" in
  outcome (begin ∅ None) {| this := readme_machine; calls := [] |} =
    Throw (ThrowString
      "Must pass a firstPhase to StateMachinePlus.begin(firstPhase)")
  ∧ outcome (_nextLocalPhase state false) w = Throw (ThrowString msg)
  ∧ outcome (onStateChange [ {| key := "phase"; value := "phase2" |} ] []
               state ∅) w
    = Throw (ThrowString msg)
  ∧ ("phase2" ≠ INITIAL_PHASE →
     outcome (begin state (Some "phase1")) w = Throw (ThrowString msg)).
Proof.
  split.
  - apply (configuration_errors_throw readme_machine [] [] [] ∅ ∅ ∅
             "" "" "" false).
  - apply (configuration_errors_throw
             (set_localPhase (Some "phase1") readme_machine_without_phase2)
             [] [ {| key := "phase"; value := "phase2" |} ] []
             {[ "phase" := "phase2" ]} ∅ ∅ "phase1" "phase2" "phase1"
             false).
    + reflexivity.
    + apply registeredb_spec. vm_compute. reflexivity.
    + discriminate.
    + apply announces_head; reflexivity.
    + apply (bool_decide_eq_false_1 (_ ∈ _)). vm_compute. reflexivity.
Defined.

(** C10 (the advance is not atomic on error): when the method of the
    candidate phase [Q] is not defined, [_nextLocalPhase] has written the
    tracker before it throws: the failed call, made directly or through
    [onStateChange] on a valid transition, leaves the tracker at [Q] and
    has called no method. *)
Theorem missing_method_leaves_tracker_advanced (m : StateMachinePlus)
    (cs : list call) (adds : list added) (removes : list string)
    (state : gmap string string)
    (metaData : gmap string (gmap string string)) (P Q : string)
    (isInitialPhase : bool) :
  localPhase m = Some P →
  registered m P Q →
  Q ≠ "" →
  announces m adds state Q →
  method_of m Q ∉ scope m →
  let w := {| this := m; calls := cs |} in
  let e := ThrowString ("Undefined phase function: " +:+ method_of m Q) in
  let w' := {| this := set_localPhase (Some Q) m; calls := cs |} in
  _nextLocalPhase state isInitialPhase w = (Throw e, w')
  ∧ onStateChange adds removes state metaData w = (Throw e, w')
  ∧ localPhase (this w') = Some Q
  ∧ calls w' = calls w.
Proof.
  intros HP Hreg HQ [Hkey Hst] Hundef w e w'.
  split; [|split; [|done]].
  - unfold w. by rewrite (nextLocalPhase_undefined _ _ _ Q).
  - unfold w, onStateChange.
    rewrite onStateChange_loop_key by done.
    rewrite (on_phase_key_valid _ _ _ P Q) by done.
    unfold mbind, js_bind.
    by rewrite (nextLocalPhase_undefined _ _ _ Q).
Qed.

Lemma missing_method_leaves_tracker_advanced_witness :
  let m := set_localPhase (Some "phase1") readme_machine_without_phase2 in
  let w := {| this := m; calls := [] |} in
  let state : gmap string string := {[ "phase" := "phase2" ]} in
  let e := ThrowString "Undefined phase function: _phase_phase2" in
  let w' := {| this := set_localPhase (Some "phase2") m; calls := [] |} in
  _nextLocalPhase state true w = (Throw e, w')
  ∧ onStateChange [ {| key := "phase"; value := "phase2" |} ] [] state ∅ w
    = (Throw e, w')
  ∧ localPhase (this w') = Some "phase2"
  ∧ calls w' = calls w.
Proof.
  apply (missing_method_leaves_tracker_advanced
           (set_localPhase (Some "phase1") readme_machine_without_phase2) []
           [ {| key := "phase"; value := "phase2" |} ] []
           {[ "phase" := "phase2" ]} ∅ "phase1" "phase2" true).
  - reflexivity.
  - apply registeredb_spec. vm_compute. reflexivity.
  - discriminate.
  - apply announces_head; reflexivity.
  - apply (bool_decide_eq_false_1 (_ ∈ _)). vm_compute. reflexivity.
Defined.

(** * Further properties of the code *)

(** ** What [addTransition] puts into the table *)

Section TableContents.

Implicit Types (m : StateMachinePlus) (from to a b : string).

Lemma lookup_pushed m from to k :
  transitions (pushed m from to) !! k =
    if decide (from = k)
    then Some (default [] (transitions m !! from) ++ [to])
    else transitions m !! k.
Proof. unfold pushed; simpl. apply lookup_insert. Qed.

Lemma registered_push_iff m from to a b :
  registered (pushed m from to) a b ↔
  registered m a b ∨ (a = from ∧ b = to).
Proof.
  unfold registered. rewrite lookup_pushed.
  destruct (decide (from = a)) as [->|Hne].
  - split.
    + intros (l & [= <-] & Hin). apply elem_of_app in Hin as [Hin|Hin].
      * left. destruct (transitions m !! a) as [l|]; simpl in Hin.
        -- by exists l.
        -- by apply elem_of_nil in Hin.
      * right. by apply list_elem_of_singleton in Hin.
    + intros [(l & Hl & Hin) | [_ ->]]; eexists; (split; [done|]).
      * rewrite Hl; simpl. apply elem_of_app. by left.
      * apply elem_of_app. right. by apply list_elem_of_singleton.
  - split; [by left | intros [H | [-> _]]; done].
Qed.

Lemma has_list_push_iff m from to k :
  is_Some (transitions (pushed m from to) !! k) ↔
  is_Some (transitions m !! k) ∨ k = from.
Proof.
  rewrite lookup_pushed. destruct (decide (from = k)) as [->|Hne].
  - split; [by right | by eexists].
  - split; [by left | intros [H | ->]; done].
Qed.

Lemma has_list_addTransition_iff m from to k :
  usable m from →
  is_Some (transitions (addTransition m from to) !! k) ↔
  is_Some (transitions m !! k) ∨ k = from
  ∨ (from ≠ INITIAL_PHASE ∧ k = INITIAL_PHASE).
Proof.
  intros Hus. destruct (decide (from = INITIAL_PHASE)) as [->|Hne].
  - rewrite addTransition_initial, has_list_push_iff. intuition congruence.
  - rewrite addTransition_other, !has_list_push_iff by done. tauto.
Qed.

Lemma registered_addTransition_iff m from to a b :
  usable m from →
  registered (addTransition m from to) a b ↔
  registered m a b ∨ (a = from ∧ b = to)
  ∨ (from ≠ INITIAL_PHASE ∧ a = INITIAL_PHASE ∧ b = from).
Proof.
  intros Hus. destruct (decide (from = INITIAL_PHASE)) as [->|Hne].
  - rewrite addTransition_initial, registered_push_iff. intuition congruence.
  - rewrite addTransition_other, !registered_push_iff by done. tauto.
Qed.

Lemma usable_addTransition_source m from to :
  usable m from → usable (addTransition m from to) from.
Proof.
  intros Hus. left. apply has_list_addTransition_iff; [done|].
  right; left. done.
Qed.

Lemma validate_loop_undefined l : validate_loop false l None = false.
Proof. induction l as [|x l IH]; [done|]. simpl. apply IH. Qed.

(** The answer of [_validateTransition] out of a phase depends on the
    table only through whether the phase has a list and which phases
    occur in it. *)
Lemma validate_determined m m' (from v : option string) :
  (is_Some (transitions m !! to_string from)
   ↔ is_Some (transitions m' !! to_string from)) →
  (∀ t, registered m (to_string from) t ↔ registered m' (to_string from) t) →
  _validateTransition m from v = _validateTransition m' from v.
Proof.
  intros Hsome Hreg. unfold _validateTransition, get_property.
  destruct (transitions m !! to_string from) as [l|] eqn:Hl;
    destruct (transitions m' !! to_string from) as [l'|] eqn:Hl'.
  - f_equal. destruct v as [t|]; [|by rewrite !validate_loop_undefined].
    rewrite !validate_loop_elem_of. apply bool_decide_ext.
    specialize (Hreg t). unfold registered in Hreg. rewrite Hl, Hl' in Hreg.
    split; intros Hin.
    + destruct (proj1 Hreg) as (? & [= <-] & ?); [by exists l|done].
    + destruct (proj2 Hreg) as (? & [= <-] & ?); [by exists l'|done].
  - destruct (proj1 Hsome) as [? [=]]. by eexists.
  - destruct (proj2 Hsome) as [? [=]]. by eexists.
  - done.
Qed.

Lemma validate_true_registered m (from : option string) to :
  _validateTransition m from (Some to) = Normal true →
  registered m (to_string from) to.
Proof.
  unfold _validateTransition, get_property, registered.
  destruct (transitions m !! to_string from) as [l|].
  - rewrite validate_loop_elem_of. intros [= H]. exists l. split; [done|].
    by apply (bool_decide_eq_true_1 (to ∈ l)).
  - destruct (Object_prototype !! to_string from) as [[n|]|]; [|done|done].
    by rewrite validate_loop_inherited_defined.
Qed.

End TableContents.

(** [_validateTransition] answers [true] exactly on the registered pairs:
    the loop with its early exit finds [to] iff [to] occurs in the list
    stored under [ToString from], wherever and however often. *)
Theorem validate_true_iff_registered (m : StateMachinePlus)
    (from : option string) (to : string) :
  _validateTransition m from (Some to) = Normal true
  ↔ registered m (to_string from) to.
Proof.
  split; [apply validate_true_registered|].
  intros (l & Hl & Hin). unfold _validateTransition.
  rewrite (get_property_own _ _ l Hl), validate_loop_elem_of. f_equal.
  by apply (bool_decide_eq_true_2 (to ∈ l)).
Qed.

(** After a run of [addTransition] calls that returned (no source was the
    name of an inherited member without a list of its own) the registered
    pairs are those of the table before, those of the calls, and for
    every call out of a phase other than the initial one the pair from
    the initial phase to that phase; nothing else. *)
Theorem addTransitions_registers_exactly (regs : list (string * string))
    (m : StateMachinePlus) (a b : string) :
  (addTransitions_calls m regs).1 = Normal tt →
  registered (addTransitions m regs) a b ↔
  registered m a b
  ∨ (a, b) ∈ regs
  ∨ (a = INITIAL_PHASE ∧ b ≠ INITIAL_PHASE ∧ ∃ t, (b, t) ∈ regs).
Proof.
  revert m. induction regs as [|[f t] regs IH]; intros m Hret.
  - unfold addTransitions; simpl. split; [by left|].
    intros [H | [H | (_ & _ & t & H)]]; [done| |]; by apply elem_of_nil in H.
  - apply addTransitions_calls_returned in Hret as (Hus & Hret & ->).
    rewrite (IH _ Hret), registered_addTransition_iff by done; simpl.
    split.
    + intros [[H | [[-> ->] | (Hne & -> & ->)]] | [H | (-> & Hne & t' & H)]].
      * by left.
      * right; left. by left.
      * right; right. split; [done|]. split; [done|]. exists t. by left.
      * right; left. by right.
      * right; right. split; [done|]. split; [done|]. exists t'. by right.
    + intros [H | [H | (-> & Hne & t' & H)]].
      * left. by left.
      * apply elem_of_cons in H as [[= -> ->] | H].
        -- left. right; left. done.
        -- right; left. done.
      * apply elem_of_cons in H as [[= -> ->] | H].
        -- left. right; right. done.
        -- right; right. split; [done|]. split; [done|]. by exists t'.
Qed.

Lemma addTransitions_registers_exactly_witness :
  registered
    (addTransitions (new_StateMachinePlus ∅ no_props)
       [("phase1", "phase2"); ("phase2", "phase3")])
    INITIAL_PHASE "phase2" ↔
  registered (new_StateMachinePlus ∅ no_props) INITIAL_PHASE "phase2"
  ∨ (INITIAL_PHASE, "phase2") ∈ [("phase1", "phase2"); ("phase2", "phase3")]
  ∨ (INITIAL_PHASE = INITIAL_PHASE ∧ "phase2" ≠ INITIAL_PHASE
     ∧ ∃ t, ("phase2", t) ∈ [("phase1", "phase2"); ("phase2", "phase3")]).
Proof.
  apply (addTransitions_registers_exactly
           [("phase1", "phase2"); ("phase2", "phase3")]
           (new_StateMachinePlus ∅ no_props) INITIAL_PHASE "phase2").
  vm_compute. reflexivity.
Defined.

(** After a run of [addTransition] calls that returned, on the
    constructor's empty table, [_validateTransition] out of a phase [p]
    returns an answer exactly when [p] was the source of a call, or is
    the initial phase and some call had another source, or is the name of
    a member inherited from [Object.prototype]; out of every other phase
    it ends in the [TypeError]. *)
Theorem validation_returns_iff_source (regs : list (string * string))
    (m : StateMachinePlus) (p : string) (v : option string) :
  transitions m = ∅ →
  (addTransitions_calls m regs).1 = Normal tt →
  ((∃ answer, _validateTransition (addTransitions m regs) (Some p) v
              = Normal answer)
   ↔ (∃ t, (p, t) ∈ regs)
     ∨ (p = INITIAL_PHASE ∧ ∃ f t, (f, t) ∈ regs ∧ f ≠ INITIAL_PHASE)
     ∨ is_Some (Object_prototype !! p))
  ∧ (_validateTransition (addTransitions m regs) (Some p) v = Throw TypeError
     ∨ ∃ answer, _validateTransition (addTransitions m regs) (Some p) v
                 = Normal answer).
Proof.
  intros Hempty Hret.
  assert (Hlist : ∀ regs m k,
    (addTransitions_calls m regs).1 = Normal tt →
    is_Some (transitions (addTransitions m regs) !! k) ↔
    is_Some (transitions m !! k) ∨ (∃ t, (k, t) ∈ regs)
    ∨ (k = INITIAL_PHASE ∧ ∃ f t, (f, t) ∈ regs ∧ f ≠ INITIAL_PHASE)).
  { clear. induction regs as [|[f t] regs IH]; intros m k Hret.
    - unfold addTransitions; simpl. split; [by left|].
      intros [H | [[t H] | (_ & f & t & H & _)]]; [done| |];
        by apply elem_of_nil in H.
    - apply addTransitions_calls_returned in Hret as (Hus & Hret & ->).
      rewrite (IH _ _ Hret), has_list_addTransition_iff by done; simpl.
      split.
      + intros [[H | [-> | [Hne ->]]] | [[t' H] | (-> & f' & t' & H & Hne)]].
        * by left.
        * right; left. exists t. by left.
        * right; right. split; [done|]. exists f, t. split; [by left|done].
        * right; left. exists t'. by right.
        * right; right. split; [done|]. exists f', t'. split; [by right|done].
      + intros [H | [[t' H] | (-> & f' & t' & H & Hne)]].
        * left. by left.
        * apply elem_of_cons in H as [[= -> ->] | H].
          -- left. right; left. done.
          -- right; left. by exists t'.
        * apply elem_of_cons in H as [[= -> ->] | H].
          -- left. right; right. done.
          -- right; right. split; [done|]. by exists f', t'. }
  specialize (Hlist regs m p Hret). rewrite Hempty, lookup_empty in Hlist.
  unfold _validateTransition, get_property; simpl.
  destruct (transitions (addTransitions m regs) !! p) as [l|].
  - split; [|right; by eexists]. split.
    + intros _. destruct (proj1 Hlist) as [[? [=]] | [H | H]];
        [by eexists | by left | by right; left].
    + intros _. by eexists.
  - destruct (Object_prototype !! p) as [i|] eqn:Hp.
    + assert (∃ answer,
        match i with
        | Method length => Normal (validate_loop_inherited false length v)
        | PrototypeObject => Normal false
        end = Normal answer) as Hans by (destruct i; by eexists).
      split; [|by right]. split; [intros _|done].
      right; right. by eexists.
    + split; [|by left]. split.
      * by intros [? [=]].
      * intros [H | [H | [? [=]]]]; destruct (proj2 Hlist) as [? [=]];
          [right; by left | right; by right].
Qed.

Lemma validation_returns_iff_source_witness :
  ((∃ answer,
      _validateTransition
        (addTransitions (new_StateMachinePlus ∅ no_props)
           [("phase1", "phase2"); ("phase2", "phase3")])
        (Some "phase3") (Some "phase3") = Normal answer)
   ↔ (∃ t, ("phase3", t) ∈ [("phase1", "phase2"); ("phase2", "phase3")])
     ∨ ("phase3" = INITIAL_PHASE
        ∧ ∃ f t, (f, t) ∈ [("phase1", "phase2"); ("phase2", "phase3")]
                 ∧ f ≠ INITIAL_PHASE)
     ∨ is_Some (Object_prototype !! "phase3"))
  ∧ (_validateTransition
       (addTransitions (new_StateMachinePlus ∅ no_props)
          [("phase1", "phase2"); ("phase2", "phase3")])
       (Some "phase3") (Some "phase3") = Throw TypeError
     ∨ ∃ answer,
         _validateTransition
           (addTransitions (new_StateMachinePlus ∅ no_props)
              [("phase1", "phase2"); ("phase2", "phase3")])
           (Some "phase3") (Some "phase3") = Normal answer).
Proof.
  apply (validation_returns_iff_source
           [("phase1", "phase2"); ("phase2", "phase3")]
           (new_StateMachinePlus ∅ no_props) "phase3" (Some "phase3")).
  - reflexivity.
  - vm_compute. reflexivity.
Defined.

(** Registering a pair once more only appends duplicates: no answer of
    [_validateTransition] changes. *)
Theorem reregistration_keeps_validation (m : StateMachinePlus)
    (from to : string) (a v : option string) :
  let m1 := addTransition m from to in
  _validateTransition (addTransition m1 from to) a v
  = _validateTransition m1 a v.
Proof.
  intros m1. unfold m1. destruct (decide (usable m from)) as [Hus|Hn].
  - pose proof (usable_addTransition_source m from to Hus) as Hus1.
    apply validate_determined.
    + rewrite (has_list_addTransition_iff (addTransition m from to))
        by done.
      rewrite !(has_list_addTransition_iff m) by done. tauto.
    + intros t.
      rewrite (registered_addTransition_iff (addTransition m from to))
        by done.
      rewrite !(registered_addTransition_iff m) by done. tauto.
  - by rewrite !(addTransition_unusable m from to Hn).
Qed.

(** A run of [addTransition] calls writes the table and nothing else: the
    tracker, the scope, the method prefix and the phase key are as
    before. *)
Theorem addTransitions_frame (regs : list (string * string))
    (m : StateMachinePlus) :
  addTransitions m regs
  = set_transitions (transitions (addTransitions m regs)) m.
Proof.
  revert m. induction regs as [|[f t] regs IH]; intros m.
  - by destruct m.
  - unfold addTransitions in *.
    destruct (decide (usable m (f, t).1)) as [Hus|Hn].
    + rewrite addTransitions_cons_usable by done. rewrite IH; simpl.
      destruct (addTransition_frame m f t) as (H1 & H2 & H3 & H4).
      unfold set_transitions. by rewrite H1, H2, H3, H4.
    + rewrite addTransitions_cons_unusable by done. by destruct m.
Qed.

(** ** What a notification can do *)

Section Notifications.

Implicit Types (m : StateMachinePlus) (cs : list call).
Implicit Types (state : gmap string string) (adds : list added).

Lemma no_phase_INITIAL : no_phase (Some INITIAL_PHASE) = false.
Proof. reflexivity. Qed.

Lemma normalize_phase state :
  normalize state !! "phase" = Some (claimed_phase state).
Proof.
  unfold normalize, claimed_phase.
  destruct (no_phase (state !! "phase")) eqn:Hno.
  - apply lookup_insert_eq.
  - by destruct (state !! "phase").
Qed.

Lemma set_localPhase_same m : set_localPhase (localPhase m) m = m.
Proof. by destruct m. Qed.

Lemma has_phase_key_dec m adds :
  has_phase_key m adds ∨ (∀ a, a ∈ adds → key a ≠ phaseKey m).
Proof.
  destruct (decide (Exists (λ a, key a = phaseKey m) adds)) as [Hex|Hno].
  - left. by apply Exists_exists in Hex.
  - right. intros a Ha Hk. apply Hno, Exists_exists. by exists a.
Qed.

(** Lines 184-190 in one equation. *)
Lemma on_phase_key_run m cs state :
  let Q := claimed_phase state in
  on_phase_key state {| this := m; calls := cs |} =
    match _validateTransition m (localPhase m) (Some Q) with
    | Throw e => (Throw e, {| this := m; calls := cs |})
    | Normal false => (Normal (normalize state), {| this := m; calls := cs |})
    | Normal true =>
        if decide (method_of m Q ∈ scope m)
        then (Normal (normalize state),
              {| this := set_localPhase (Some Q) m;
                 calls := cs ++ [PhaseMethod (method_of m Q) (normalize state)
                                   (eq_str (localPhase m) INITIAL_PHASE)] |})
        else (Throw (ThrowString
                       ("Undefined phase function: " +:+ method_of m Q)),
              {| this := set_localPhase (Some Q) m; calls := cs |})
    end.
Proof.
  intros Q. unfold on_phase_key. fold (normalize state).
  unfold mbind at 1 2, js_bind at 1 2, get_this, lift; simpl.
  rewrite normalize_phase. fold Q.
  destruct (_validateTransition m (localPhase m) (Some Q)) as [[|]|e];
    [|done|done].
  unfold mbind, js_bind.
  destruct (decide (method_of m Q ∈ scope m)) as [Hdef|Hundef].
  - by rewrite (nextLocalPhase_defined _ _ _ Q)
      by (done || apply normalize_phase).
  - by rewrite (nextLocalPhase_undefined _ _ _ Q)
      by (done || apply normalize_phase).
Qed.

(** The world after a notification: as before, or moved along one
    registered pair, with the call of the new phase's method when the
    scope defines it. *)
Lemma after_onStateChange m cs adds removes state metaData :
  let Q := claimed_phase state in
  let w' := after (onStateChange adds removes state metaData)
                  {| this := m; calls := cs |} in
  w' = {| this := m; calls := cs |}
  ∨ (registered m (to_string (localPhase m)) Q
     ∧ (w' = {| this := set_localPhase (Some Q) m;
                calls := cs ++ [PhaseMethod (method_of m Q) (normalize state)
                                  (eq_str (localPhase m) INITIAL_PHASE)] |}
        ∨ w' = {| this := set_localPhase (Some Q) m; calls := cs |})).
Proof.
  intros Q w'. unfold w', after, onStateChange.
  destruct (has_phase_key_dec m adds) as [Hkey|Hno].
  - rewrite onStateChange_loop_key by done. rewrite on_phase_key_run. fold Q.
    destruct (_validateTransition m (localPhase m) (Some Q)) as [[|]|e] eqn:Hv;
      [|by left|by left].
    right. split; [by apply validate_true_registered|].
    destruct (decide (method_of m Q ∈ scope m)); [by left|by right].
  - left. by rewrite onStateChange_loop_no_key.
Qed.

End Notifications.




(** [onStateChange] writes no field but the tracker and makes at most one
    external call, never a [submitDelta]: the one call it can make is that
    of the method of the phase the tracker has just been set to, with a
    [state] that holds this phase and with [isInitialPhase] telling
    whether the tracker was at the initial phase. *)
Theorem onStateChange_frame (m : StateMachinePlus) (cs : list call)
    (adds : list added) (removes : list string)
    (state : gmap string string)
    (metaData : gmap string (gmap string string)) :
  ∃ (p : option string) (cs' : list call),
    after (onStateChange adds removes state metaData)
          {| this := m; calls := cs |}
    = {| this := set_localPhase p m; calls := cs ++ cs' |}
    ∧ (cs' = []
       ∨ ∃ Q state',
           p = Some Q ∧ state' !! "phase" = Some Q
           ∧ cs' = [PhaseMethod (method_of m Q) state'
                      (eq_str (localPhase m) INITIAL_PHASE)]).
Proof.
  destruct (after_onStateChange m cs adds removes state metaData)
    as [-> | (_ & [-> | ->])].
  - exists (localPhase m), []. rewrite set_localPhase_same, app_nil_r.
    split; [done | by left].
  - eexists _, _. split; [done|]. right.
    eexists _, _. split; [done|]. split; [apply normalize_phase | done].
  - exists (Some (claimed_phase state)), []. rewrite app_nil_r.
    split; [done | by left].
Qed.

(** A phase key whose value is absent or empty is read as the initial
    phase: the notification does what the same notification with
    [state.phase] set to the initial phase does. *)
Theorem missing_phase_read_as_initial (w : world) (adds : list added)
    (removes : list string) (state : gmap string string)
    (metaData : gmap string (gmap string string)) :
  has_phase_key (this w) adds →
  state !! "phase" = None ∨ state !! "phase" = Some "" →
  onStateChange adds removes state metaData w
  = onStateChange adds removes (<["phase" := INITIAL_PHASE]> state)
      metaData w.
Proof.
  intros Hkey Hno. unfold onStateChange.
  rewrite !onStateChange_loop_key by done.
  unfold on_phase_key. rewrite lookup_insert_eq, no_phase_INITIAL.
  by destruct Hno as [-> | ->].
Qed.

Lemma missing_phase_read_as_initial_witness :
  let w := {| this := set_localPhase (Some "phase1") readme_machine;
              calls := [] |} in
  onStateChange [ {| key := "phase"; value := "" |} ] [] ∅ ∅ w
  = onStateChange [ {| key := "phase"; value := "" |} ] []
      (<["phase" := INITIAL_PHASE]> ∅) ∅ w.
Proof.
  apply (missing_phase_read_as_initial
           {| this := set_localPhase (Some "phase1") readme_machine;
              calls := [] |}
           [ {| key := "phase"; value := "" |} ] [] ∅ ∅).
  - eexists. split; [apply list_elem_of_here | reflexivity].
  - left. reflexivity.
Defined.

(** Of the changed keys only the presence of the phase key is used: two
    notifications that both have it, with the same [state], do the same,
    whatever else their [adds], [removes] and [metaData] hold. *)
Theorem only_phase_key_presence_matters (w : world)
    (adds adds' : list added) (removes removes' : list string)
    (state : gmap string string)
    (metaData metaData' : gmap string (gmap string string)) :
  has_phase_key (this w) adds →
  has_phase_key (this w) adds' →
  onStateChange adds removes state metaData w
  = onStateChange adds' removes' state metaData' w.
Proof.
  intros Hkey Hkey'. unfold onStateChange.
  by rewrite !onStateChange_loop_key.
Qed.

Lemma only_phase_key_presence_matters_witness :
  let w := {| this := set_localPhase (Some "phase1") readme_machine;
              calls := [] |} in
  onStateChange [ {| key := "phase"; value := "phase2" |} ] []
    {[ "phase" := "phase2" ]} ∅ w
  = onStateChange
      [ {| key := "score"; value := "1" |};
        {| key := "phase"; value := "phase2" |};
        {| key := "phase"; value := "phase3" |} ]
      ["turn"] {[ "phase" := "phase2" ]} ∅ w.
Proof.
  apply (only_phase_key_presence_matters
           {| this := set_localPhase (Some "phase1") readme_machine;
              calls := [] |}).
  - eexists. split; [apply list_elem_of_here | reflexivity].
  - eexists. split; [apply list_elem_of_further, list_elem_of_here
                    | reflexivity].
Defined.

(** ** Runs of notifications, and start-up *)

Lemma deliver_all_cons (n : notification) (ns : list notification)
    (w : world) :
  deliver_all (n :: ns) w = deliver_all ns (deliver n w).
Proof. reflexivity. Qed.

(** What a run of notifications keeps: the fields other than the tracker;
    the tracker on a path of registered pairs; one call at most per
    notification, each of the method of the phase its [state] holds. *)
Lemma deliver_all_invariant (ns : list notification) (m : StateMachinePlus)
    (cs : list call) :
  ∃ (p : option string) (cs' : list call),
    deliver_all ns {| this := m; calls := cs |}
    = {| this := set_localPhase p m; calls := cs ++ cs' |}
    ∧ rtc (step m) (localPhase m) p
    ∧ (length cs' ≤ length ns)%nat
    ∧ Forall (calls_method_of_state m) cs'.
Proof.
  revert m cs. induction ns as [|n ns IH]; intros m cs.
  - exists (localPhase m), []. simpl.
    rewrite set_localPhase_same, app_nil_r. done.
  - rewrite deliver_all_cons. unfold deliver.
    destruct (after_onStateChange m cs (n_adds n) (n_removes n) (n_state n)
                (n_metaData n)) as [-> | (Hreg & [-> | ->])].
    + destruct (IH m cs) as (p & cs' & -> & Hp & Hlen & Hall).
      exists p, cs'. simpl. split; [done|]. split; [done|]. split; [lia|done].
    + destruct (IH (set_localPhase (Some (claimed_phase (n_state n))) m)
                  (cs ++ [PhaseMethod
                            (method_of m (claimed_phase (n_state n)))
                            (normalize (n_state n))
                            (eq_str (localPhase m) INITIAL_PHASE)]))
        as (p & cs' & -> & Hp & Hlen & Hall).
      eexists p, (_ :: cs'). rewrite <- app_assoc. simpl.
      split; [done|]. split; [|split; [lia|]].
      * eapply rtc_l; [|exact Hp]. by eexists.
      * apply Forall_cons. split; [|done].
        eexists _, _, _. split; [done|]. apply normalize_phase.
    + destruct (IH (set_localPhase (Some (claimed_phase (n_state n))) m) cs)
        as (p & cs' & -> & Hp & Hlen & Hall).
      exists p, cs'. simpl. split; [done|]. split; [|split; [lia|done]].
      eapply rtc_l; [|exact Hp]. by eexists.
Qed.

(** Over any run of notifications the tracker only moves along registered
    pairs: its value at the end is reached from its value at the start by
    a path in the table, and no other field of the machine has changed. *)
Theorem tracker_follows_registered_pairs (ns : list notification)
    (m : StateMachinePlus) (cs : list call) :
  let w' := deliver_all ns {| this := m; calls := cs |} in
  this w' = set_localPhase (localPhase (this w')) m
  ∧ rtc (step m) (localPhase m) (localPhase (this w')).
Proof.
  destruct (deliver_all_invariant ns m cs) as (p & cs' & Hw & Hp & _).
  simpl. rewrite Hw. done.
Qed.

(** Over any run of notifications the component makes at most one
    external call per notification, and each is the call of a phase
    method, named after the phase held by the [state] it is given: no run
    of notifications submits a delta. *)
Theorem at_most_one_method_call_per_notification (ns : list notification)
    (m : StateMachinePlus) (cs : list call) :
  ∃ cs' : list call,
    calls (deliver_all ns {| this := m; calls := cs |}) = cs ++ cs'
    ∧ (length cs' ≤ length ns)%nat
    ∧ Forall (calls_method_of_state m) cs'.
Proof.
  destruct (deliver_all_invariant ns m cs) as (p & cs' & Hw & _ & Hlen & Hall).
  exists cs'. rewrite Hw. done.
Qed.

(** A registered pair [(Q, Q)] switches the de-duplication off at [Q]:
    with the tracker at [Q], each of [k] deliveries of "the phase is [Q]"
    calls the method of [Q] again. *)
Theorem registered_loop_repeats_method (k : nat) (n : notification)
    (m : StateMachinePlus) (cs : list call) (Q : string) :
  localPhase m = Some Q →
  registered m Q Q →
  Q ≠ "" →
  method_of m Q ∈ scope m →
  announces m (n_adds n) (n_state n) Q →
  deliver_all (replicate k n) {| this := m; calls := cs |}
  = {| this := m;
       calls := cs ++ replicate k
                        (PhaseMethod (method_of m Q) (n_state n)
                           (String.eqb INITIAL_PHASE Q)) |}.
Proof.
  intros HP Hreg HQ Hdef [Hkey Hst]. revert cs.
  induction k as [|k IH]; intros cs.
  - simpl. by rewrite app_nil_r.
  - cbn [replicate]. rewrite deliver_all_cons.
    assert (Hone : deliver n {| this := m; calls := cs |}
      = {| this := m;
           calls := cs ++ [PhaseMethod (method_of m Q) (n_state n)
                             (String.eqb INITIAL_PHASE Q)] |}).
    { unfold deliver, after, onStateChange.
      rewrite onStateChange_loop_key by done.
      rewrite (on_phase_key_valid _ _ _ Q Q) by done.
      unfold mbind, js_bind.
      rewrite (nextLocalPhase_defined _ _ _ Q) by done. simpl.
      by rewrite <- HP, set_localPhase_same. }
    rewrite Hone, IH, <- app_assoc. done.
Qed.

Lemma registered_loop_repeats_method_witness :
  let m := addTransition (set_localPhase (Some "phase3") readme_machine)
             "phase3" "phase3" in
  let n := {| n_adds := [ {| key := "phase"; value := "phase3" |} ];
              n_removes := []; n_state := {[ "phase" := "phase3" ]};
              n_metaData := ∅ |} in
  deliver_all (replicate 3 n) {| this := m; calls := [] |}
  = {| this := m;
       calls := [] ++ replicate 3
                  (PhaseMethod (method_of m "phase3") (n_state n)
                     (String.eqb INITIAL_PHASE "phase3")) |}.
Proof.
  apply (registered_loop_repeats_method 3
           {| n_adds := [ {| key := "phase"; value := "phase3" |} ];
              n_removes := []; n_state := {[ "phase" := "phase3" ]};
              n_metaData := ∅ |}
           (addTransition (set_localPhase (Some "phase3") readme_machine)
              "phase3" "phase3") [] "phase3").
  - reflexivity.
  - apply registeredb_spec. vm_compute. reflexivity.
  - discriminate.
  - apply (bool_decide_eq_true_1 (_ ∈ _)). vm_compute. reflexivity.
  - apply announces_head; reflexivity.
Defined.

(** [begin] on a fresh session and the participant's own notification:
    when the set-up returned and the first phase [X] was the source of one
    of its [addTransition] calls, [begin(X)] submits [{phase: X}], and the
    notification of this write moves the tracker from the initial phase
    to [X] ([localPhase] is [X] afterwards) and calls the method of [X]
    with [isInitialPhase = true]. *)
Theorem begin_then_own_notification (regs : list (string * string))
    (m0 : StateMachinePlus) (cs : list call) (X t : string)
    (snapshot state : gmap string string) (adds : list added)
    (removes : list string) (metaData : gmap string (gmap string string)) :
  let m := addTransitions m0 regs in
  let w' := after (onStateChange adds removes state metaData)
              (after (begin snapshot (Some X))
                 {| this := m; calls := cs |}) in
  (addTransitions_calls m0 regs).1 = Normal tt →
  (X, t) ∈ regs →
  X ≠ INITIAL_PHASE →
  X ≠ "" →
  localPhase m = Some INITIAL_PHASE →
  method_of m X ∈ scope m →
  snapshot !! "phase" = None ∨ snapshot !! "phase" = Some ""
  ∨ snapshot !! "phase" = Some INITIAL_PHASE →
  announces m adds state X →
  w' = {| this := set_localPhase (Some X) m;
          calls := cs ++ [SubmitDelta {[ "phase" := X ]} [];
                          PhaseMethod (method_of m X) state true] |}
  ∧ localPhase (this w') = Some X.
Proof.
  intros m w' Hret Hin Hne HX HP Hdef Hfresh [Hkey Hst].
  assert (Hbegin : after (begin snapshot (Some X)) {| this := m; calls := cs |}
    = {| this := m; calls := cs ++ [SubmitDelta {[ "phase" := X ]} []] |}).
  { unfold after, begin, nextPhase.
    destruct Hfresh as [-> | [-> | ->]]; simpl; by rewrite insert_empty. }
  assert (Hw' : w' =
    {| this := set_localPhase (Some X) m;
       calls := cs ++ [SubmitDelta {[ "phase" := X ]} [];
                       PhaseMethod (method_of m X) state true] |}).
  { unfold w'. rewrite Hbegin. unfold after, onStateChange.
    rewrite onStateChange_loop_key by done.
    rewrite (on_phase_key_valid _ _ _ INITIAL_PHASE X);
      [|done|by apply (registered_initial_of_source _ _ _ t)|done|done].
    unfold mbind, js_bind.
    rewrite (nextLocalPhase_defined _ _ _ X) by done. simpl.
    by rewrite <- app_assoc. }
  split; [done|]. by rewrite Hw'.
Qed.

Lemma begin_then_own_notification_witness :
  let w' :=
    after (onStateChange [ {| key := "phase"; value := "phase1" |} ] []
             {[ "phase" := "phase1" ]} ∅)
      (after (begin ∅ (Some "phase1"))
         {| this := readme_machine; calls := [] |}) in
  w' = {| this := set_localPhase (Some "phase1") readme_machine;
          calls := [SubmitDelta {[ "phase" := "phase1" ]} [];
                    PhaseMethod "_phase_phase1" {[ "phase" := "phase1" ]}
                      true] |}
  ∧ localPhase (this w') = Some "phase1".
Proof.
  apply (begin_then_own_notification
           [("phase1", "phase2"); ("phase2", "phase3")]
           (new_StateMachinePlus
              {[ "_phase_phase1"; "_phase_phase2"; "_phase_phase3" ]}
              no_props)
           [] "phase1" "phase2" ∅ {[ "phase" := "phase1" ]}
           [ {| key := "phase"; value := "phase1" |} ] [] ∅).
  - vm_compute. reflexivity.
  - apply list_elem_of_here.
  - discriminate.
  - discriminate.
  - reflexivity.
  - apply (bool_decide_eq_true_1 (_ ∈ _)). vm_compute. reflexivity.
  - left. reflexivity.
  - apply announces_head; reflexivity.
Defined.

(** A late joiner is in step after its fast-forward: [begin] on a session
    at phase [Y] sets the tracker to [Y] without consulting the table, and
    the next notification of a phase [Z] registered after [Y] moves the
    tracker to [Z] and calls the method of [Z] with
    [isInitialPhase = false]. *)
Theorem fast_forward_then_next_phase (m : StateMachinePlus) (cs : list call)
    (X Y Z : string) (snapshot state : gmap string string)
    (adds : list added) (removes : list string)
    (metaData : gmap string (gmap string string)) :
  snapshot !! "phase" = Some Y →
  Y ≠ "" →
  Y ≠ INITIAL_PHASE →
  method_of m Y ∈ scope m →
  registered m Y Z →
  Z ≠ "" →
  method_of m Z ∈ scope m →
  announces m adds state Z →
  after (onStateChange adds removes state metaData)
    (after (begin snapshot (Some X)) {| this := m; calls := cs |})
  = {| this := set_localPhase (Some Z) m;
       calls := cs ++ [PhaseMethod (method_of m Y) snapshot true;
                       PhaseMethod (method_of m Z) state false] |}.
Proof.
  intros HY HYne Hinit HdefY Hreg HZ HdefZ [Hkey Hst].
  assert (Hbegin : after (begin snapshot (Some X)) {| this := m; calls := cs |}
    = {| this := set_localPhase (Some Y) m;
         calls := cs ++ [PhaseMethod (method_of m Y) snapshot true] |}).
  { unfold after, begin. rewrite HY, truthy_Some by done. unfold str_eq.
    rewrite (proj2 (String.eqb_neq INITIAL_PHASE Y)) by done. simpl.
    by rewrite (nextLocalPhase_defined _ _ _ Y). }
  rewrite Hbegin. unfold after, onStateChange.
  rewrite onStateChange_loop_key by done.
  rewrite (on_phase_key_valid _ _ _ Y Z) by done.
  unfold mbind, js_bind.
  rewrite (nextLocalPhase_defined _ _ _ Z) by done.
  rewrite (proj2 (String.eqb_neq INITIAL_PHASE Y)) by done.
  by rewrite <- app_assoc.
Qed.

Lemma fast_forward_then_next_phase_witness :
  after (onStateChange [ {| key := "phase"; value := "phase3" |} ] []
           {[ "phase" := "phase3" ]} ∅)
    (after (begin {[ "phase" := "phase2" ]} (Some "phase1"))
       {| this := readme_machine; calls := [] |})
  = {| this := set_localPhase (Some "phase3") readme_machine;
       calls := [PhaseMethod "_phase_phase2" {[ "phase" := "phase2" ]} true;
                 PhaseMethod "_phase_phase3" {[ "phase" := "phase3" ]}
                   false] |}.
Proof.
  apply (fast_forward_then_next_phase readme_machine [] "phase1" "phase2"
           "phase3" {[ "phase" := "phase2" ]} {[ "phase" := "phase3" ]}
           [ {| key := "phase"; value := "phase3" |} ] [] ∅).
  - reflexivity.
  - discriminate.
  - discriminate.
  - apply (bool_decide_eq_true_1 (_ ∈ _)). vm_compute. reflexivity.
  - apply registeredb_spec. vm_compute. reflexivity.
  - discriminate.
  - apply (bool_decide_eq_true_1 (_ ∈ _)). vm_compute. reflexivity.
  - apply announces_head; reflexivity.
Defined.

(** However often the API reports that it is ready, the set-up runs once:
    after one or more calls of [onApiReady] on a new instance, [setup] has
    been applied once and one state-change listener has been registered,
    provided [setup] does not clear the flag. *)
Theorem onApiReady_sets_up_once (setup : instance → instance)
    (i : instance) (n : nat) :
  _setupComplete i = false →
  (∀ j, _setupComplete j = true → _setupComplete (setup j) = true) →
  Nat.iter (S n) (onApiReady setup) i
  = setup {| machine := machine i; _setupComplete := true;
             listeners := listeners i ++ [StateChangeListener] |}.
Proof.
  intros Hnew Hkeeps. induction n as [|n IH].
  - simpl. unfold onApiReady. by rewrite Hnew.
  - change (Nat.iter (S (S n)) (onApiReady setup) i)
      with (onApiReady setup (Nat.iter (S n) (onApiReady setup) i)).
    rewrite IH. unfold onApiReady at 1.
    by rewrite Hkeeps.
Qed.

Lemma onApiReady_sets_up_once_witness :
  Nat.iter 3
    (onApiReady (setup_transitions [("phase1", "phase2")]))
    (construct ∅ no_props)
  = setup_transitions [("phase1", "phase2")]
      {| machine := machine (construct ∅ no_props); _setupComplete := true;
         listeners := listeners (construct ∅ no_props)
                      ++ [StateChangeListener] |}.
Proof.
  apply (onApiReady_sets_up_once
           (setup_transitions [("phase1", "phase2")])
           (construct ∅ no_props) 2).
  - reflexivity.
  - intros j Hj. simpl. exact Hj.
Defined.
